(** * tgd_header::detail::file (include/tgd_header/file.hpp)

    A shallow embedding of the RAII file-descriptor wrapper [file] of
    tgd-header-lib, together with a small model of the POSIX / MS CRT
    primitives it calls ([open], [close], [fstat], [_filelengthi64] and the
    thread-local invalid-parameter handler).  Methods are written in
    explicit state-passing style over the operating-system [World]; a C++
    exception is the [Throw] outcome, a CRT abort is [Abort]. *)

From Stdlib Require Import ZArith Lia.
From stdpp Require Import base gmap list strings.

Local Open Scope Z_scope.

(** ** Operating-system model *)

Definition EBADF : Z := 9.
Definition ENOENT : Z := 2.
(** [O_CREAT] as Linux defines it (octal 0100), i.e. bit 6 of the flags. *)
Definition O_CREAT_BIT : Z := 6.

(** An open file description: which file it refers to and its cursor. *)
Record ofd := mk_ofd { ofd_path : string; ofd_offset : Z }.

(** The CRT invalid-parameter handler currently installed for the thread. *)
Inductive iph := IphDefault | IphIgnore.

Record World := mk_world {
  w_files : gmap string Z;      (** byte length of each file on disk *)
  w_ftab : gmap Z ofd;          (** the process's descriptor table *)
  w_next : N;                   (** next descriptor [open] hands out *)
  w_errno : Z;                  (** the thread's [errno] *)
  w_close_fault : gmap Z Z;     (** [close fd] fails with this errno *)
  w_close_log : list Z;         (** arguments of every [close] call, newest first *)
  w_iph : iph                   (** thread-local invalid-parameter handler *)
}.

Definition set_errno (e : Z) (w : World) : World :=
  mk_world (w_files w) (w_ftab w) (w_next w) e (w_close_fault w) (w_close_log w) (w_iph w).
Definition set_ftab (t : gmap Z ofd) (w : World) : World :=
  mk_world (w_files w) t (w_next w) (w_errno w) (w_close_fault w) (w_close_log w) (w_iph w).
Definition set_files (fs : gmap string Z) (w : World) : World :=
  mk_world fs (w_ftab w) (w_next w) (w_errno w) (w_close_fault w) (w_close_log w) (w_iph w).
Definition set_next (n : N) (w : World) : World :=
  mk_world (w_files w) (w_ftab w) n (w_errno w) (w_close_fault w) (w_close_log w) (w_iph w).
Definition log_close (fd : Z) (w : World) : World :=
  mk_world (w_files w) (w_ftab w) (w_next w) (w_errno w) (w_close_fault w) (fd :: w_close_log w) (w_iph w).
Definition set_iph (h : iph) (w : World) : World :=
  mk_world (w_files w) (w_ftab w) (w_next w) (w_errno w) (w_close_fault w) (w_close_log w) h.

(** Current byte length of the file an open description refers to. *)
Definition ofd_size (w : World) (d : ofd) : Z := default 0 (w_files w !! ofd_path d).

(** [::open(path, flags)]: returns a fresh descriptor, or -1 with [errno]. *)
Definition sys_open (w : World) (path : string) (flags : Z) : World * Z :=
  let fd := Z.of_N (w_next w) in
  let alloc (w' : World) :=
    (set_next (w_next w' + 1) (set_ftab (<[fd := mk_ofd path 0]> (w_ftab w')) w'), fd) in
  match w_files w !! path with
  | Some _ => alloc w
  | None =>
      if Z.testbit flags O_CREAT_BIT then alloc (set_files (<[path := 0]> (w_files w)) w)
      else (set_errno ENOENT w, -1)
  end.

(** [::close(fd)]: the call is logged; the descriptor is released even when
    the call reports an error (as on Linux); returns 0 or -1 with [errno]. *)
Definition sys_close (w : World) (fd : Z) : World * Z :=
  let w := log_close fd w in
  match w_ftab w !! fd with
  | None => (set_errno EBADF w, -1)
  | Some _ =>
      let w := set_ftab (delete fd (w_ftab w)) w in
      match w_close_fault w !! fd with
      | Some e => (set_errno e w, -1)
      | None => (w, 0)
      end
  end.

(** [::fstat(fd, &s)]: return code and [s.st_size] (unspecified on error). *)
Definition sys_fstat (w : World) (fd : Z) : World * Z * Z :=
  match w_ftab w !! fd with
  | Some d => (w, 0, ofd_size w d)
  | None => (set_errno EBADF w, -1, 0)
  end.

(** [::_filelengthi64(fd)]: on an invalid descriptor the CRT calls the
    invalid-parameter handler; the default one aborts the process
    ([None]); if the handler returns, the call sets [errno] to [EBADF] and
    returns -1. *)
Definition sys_filelengthi64 (w : World) (fd : Z) : option (World * Z) :=
  match w_ftab w !! fd with
  | Some d => Some (w, ofd_size w d)
  | None =>
      match w_iph w with
      | IphDefault => None
      | IphIgnore => Some (set_errno EBADF w, -1)
      end
  end.

(** ** C++ values *)

(** [std::system_error{errno, std::system_category(), what}]. *)
Record system_error := mk_system_error { se_code : Z; se_what : string }.

Inductive outcome (A : Type) :=
| Ok (a : A)
| Throw (e : system_error)
| Abort.
Arguments Ok {A} a.
Arguments Throw {A} e.
Arguments Abort {A}.

(** [static_cast<std::size_t>] on a 64-bit target. *)
Definition to_size_t (z : Z) : Z := z mod 2 ^ 64.

(** ** class file *)

Record file := mk_file { m_fd : Z }.

(** [explicit file(int fd) noexcept : m_fd(fd) {}] *)
Definition file_wrap (fd : Z) : file := mk_file fd.

(** [int fd() const noexcept { return m_fd; }] *)
Definition fd (f : file) : Z := m_fd f.

(** [static int open_file(const std::string& filename, int flags, ...)] *)
Definition open_file (w : World) (filename : string) (flags : Z) : World * outcome Z :=
  let '(w1, fd) := sys_open w filename flags in
  if fd <? 0 then
    (w1, Throw (mk_system_error (w_errno w1) ("Error opening file '" +:+ filename +:+ "': ")))
  else (w1, Ok fd).

(** [void close()] *)
Definition close (w : World) (f : file) : World * file * outcome unit :=
  if m_fd f >=? 2 then
    let '(w1, r) := sys_close w (m_fd f) in
    if negb (r =? 0) then
      (w1, mk_file (-1), Throw (mk_system_error (w_errno w1) "Error closing file: "))
    else (w1, mk_file (-1), Ok tt)
  else (w, f, Ok tt).

(** [try { ... } catch (...) { }] *)
Definition catch_all (r : outcome unit) : outcome unit :=
  match r with
  | Ok _ | Throw _ => Ok tt
  | Abort => Abort
  end.

(** [~file() noexcept { try { close(); } catch (...) {} }] *)
Definition destroy (w : World) (f : file) : World * outcome unit :=
  let '(w1, _, r) := close w f in (w1, catch_all r).

(** [file(file&& other) noexcept]: returns the new object and the source. *)
Definition move_construct (other : file) : file * file :=
  (mk_file (m_fd other), mk_file (-1)).

(** [file& operator=(file&& other) noexcept]: returns the world, the
    assigned object, the source and the outcome of the call. *)
Definition move_assign (w : World) (this other : file) : World * file * file * outcome unit :=
  let '(w1, this1, r) := close w this in
  (w1, mk_file (m_fd other), mk_file (-1), catch_all r).

(** [std::size_t file_size() const], Unix branch ([fstat]). *)
Definition file_size_unix (w : World) (f : file) : World * outcome Z :=
  let '(w1, r, st_size) := sys_fstat w (m_fd f) in
  if negb (r =? 0) then
    (w1, Throw (mk_system_error (w_errno w1) "Could not get file size: "))
  else (w1, Ok (to_size_t st_size)).

(** [std::size_t file_size() const], [_MSC_VER] branch: the guard object
    [disable_invalid_parameter_handler diph] installs a handler that does
    nothing and its destructor reinstalls the previous one on every exit
    path. *)
Definition file_size_win (w : World) (f : file) : World * outcome Z :=
  let old_handler := w_iph w in
  let w0 := set_iph IphIgnore w in
  match sys_filelengthi64 w0 (m_fd f) with
  | None => (w0, Abort)
  | Some (w1, size) =>
      let w2 := set_iph old_handler w1 in
      if size <? 0 then
        (w2, Throw (mk_system_error (w_errno w1) "Could not get file size: "))
      else (w2, Ok (to_size_t size))
  end.

(** Modelled from the spec: the factory that opens a path and wraps the
    result is not in the sources ([open_file] is a protected helper meant
    for it); per the spec it calls [open_file] and, on success, wraps the
    descriptor in a new owning [file], letting the error propagate
    otherwise. *)
Definition open_handle (w : World) (path : string) (flags : Z) : World * outcome file :=
  match open_file w path flags with
  | (w1, Ok fd) => (w1, Ok (file_wrap fd))
  | (w1, Throw e) => (w1, Throw e)
  | (w1, Abort) => (w1, Abort)
  end.

(** ** The life of one [file] object

    How one object comes to exist, and what a program can then do with
    it; the object is destroyed at the end. *)
Inductive init :=
| IWrap (v : Z)                        (** [file a{v};] *)
| IOpen (path : string) (flags : Z)    (** [file a = open(path, flags);] *)
| IMoveFrom (v : Z).                   (** [file a{std::move(b)};], [b.fd() == v] *)

Inductive op :=
| OClose                               (** [a.close();] (an exception is caught by the caller) *)
| OMoveConstructOut                    (** [file g{std::move(a)};] *)
| OMoveAssignOut (dst : Z)             (** [g = std::move(a);], [g.fd() == dst] *)
| OMoveAssignIn (src : Z)              (** [a = std::move(b);], [b.fd() == src]; also [a = file{src};] *)
| OAssignOpen (path : string) (flags : Z). (** [a = open(path, flags);] *)

(** What the object does with descriptors: takes one over, passes one to
    the OS [close], or hands one to another object. *)
Inductive event :=
| EAcquire (v : Z)
| ECloseCall (v : Z)
| ERelease (v : Z).

(** The [close] calls made between two worlds, oldest first. *)
Definition new_closes (w w' : World) : list event :=
  ECloseCall <$> reverse (take (length (w_close_log w') - length (w_close_log w)) (w_close_log w')).

(** One operation on the object [a]: new world, new [a], the events of [a]. *)
Definition step (w : World) (a : file) (o : op) : World * file * list event :=
  match o with
  | OClose =>
      let '(w1, a1, _) := close w a in (w1, a1, new_closes w w1)
  | OMoveConstructOut =>
      let '(_, a1) := move_construct a in (w, a1, [ERelease (m_fd a)])
  | OMoveAssignOut dst =>
      (* the close made here is [g]'s, not [a]'s *)
      let '(w1, _, a1, _) := move_assign w (mk_file dst) a in (w1, a1, [ERelease (m_fd a)])
  | OMoveAssignIn src =>
      let '(w1, a1, _, _) := move_assign w a (mk_file src) in
      (w1, a1, new_closes w w1 ++ [EAcquire src])
  | OAssignOpen path flags =>
      match open_handle w path flags with
      | (w1, Ok tmp) =>
          let '(w2, a1, tmp1, _) := move_assign w1 a tmp in
          let '(w3, _) := destroy w2 tmp1 in
          (w3, a1, new_closes w1 w3 ++ [EAcquire (m_fd tmp)])
      | (w1, _) => (w1, a, [])
      end
  end.

Fixpoint run (w : World) (a : file) (ops : list op) : World * file * list event :=
  match ops with
  | [] => (w, a, [])
  | o :: ops' =>
      let '(w1, a1, ev1) := step w a o in
      let '(w2, a2, ev2) := run w1 a1 ops' in
      (w2, a2, ev1 ++ ev2)
  end.

Definition construct (w : World) (i : init) : World * option file * list event :=
  match i with
  | IWrap v => (w, Some (file_wrap v), [EAcquire v])
  | IOpen path flags =>
      match open_handle w path flags with
      | (w1, Ok a) => (w1, Some a, [EAcquire (m_fd a)])
      | (w1, _) => (w1, None, [])
      end
  | IMoveFrom v => let '(a, _) := move_construct (mk_file v) in (w, Some a, [EAcquire v])
  end.

(** Construction, the operations, then the destructor. *)
Definition lifetime (w : World) (i : init) (ops : list op) : World * list event :=
  match construct w i with
  | (w1, Some a, ev0) =>
      let '(w2, a2, ev1) := run w1 a ops in
      let '(w3, _) := destroy w2 a2 in
      (w3, ev0 ++ ev1 ++ new_closes w2 w3)
  | (w1, None, ev0) => (w1, ev0)
  end.

(** Remove one occurrence of [v]. *)
Fixpoint remove_one (v : Z) (l : list Z) : list Z :=
  match l with
  | [] => []
  | x :: l' => if x =? v then l' else x :: remove_one v l'
  end.

(** Replays events against the descriptors the object currently holds;
    [None] when the object passes to [close] a descriptor it does not hold
    (never acquired, or already closed or handed over since). *)
Fixpoint check (held : list Z) (ev : list event) : option (list Z) :=
  match ev with
  | [] => Some held
  | EAcquire v :: ev' => check (v :: held) ev'
  | ECloseCall v :: ev' =>
      if bool_decide (v ∈ held) then check (remove_one v held) ev' else None
  | ERelease v :: ev' => check (remove_one v held) ev'
  end.

(** No double close: every [close] call of the object is on a descriptor
    it acquired and has neither closed nor handed over since. *)
Definition closes_ok (ev : list event) : bool :=
  match check [] ev with Some _ => true | None => false end.

(** ** Sample worlds *)

(** Descriptor 0 is the inherited standard input, 5 and 7 are open on
    [data.tgd]; closing 7 fails with [EIO] (5). *)
Definition w_demo : World :=
  mk_world (<["data.tgd" := 1234]> (<["/dev/stdin" := 0]> ∅))
           (<[0 := mk_ofd "/dev/stdin" 0]> (<[5 := mk_ofd "data.tgd" 100]>
              (<[7 := mk_ofd "data.tgd" 0]> ∅)))
           8%N 0 (<[7 := 5]> ∅) [] IphDefault.

Example open_missing :
  open_file w_demo "none.tgd" 0 =
    (set_errno ENOENT w_demo,
     Throw (mk_system_error ENOENT "Error opening file 'none.tgd': ")).
Proof. reflexivity. Qed.

Example size_demo : snd (file_size_unix w_demo (mk_file 5)) = Ok 1234.
Proof. reflexivity. Qed.

Example lifetime_demo :
  snd (lifetime w_demo (IWrap 5) [OClose; OMoveAssignIn 6; OMoveConstructOut]) =
    [EAcquire 5; ECloseCall 5; EAcquire 6; ERelease 6].
Proof. reflexivity. Qed.

(** ** Helper lemmas *)

Ltac zge :=
  match goal with
  | E : (_ >=? _) = _ |- _ => rewrite Z.geb_leb in E; first [apply Z.leb_le in E | apply Z.leb_gt in E]
  end.

Lemma sys_close_log (w : World) (v : Z) :
  w_close_log (fst (sys_close w v)) = v :: w_close_log w.
Proof.
  unfold sys_close. simpl.
  destruct (w_ftab w !! v); [destruct (w_close_fault w !! v)|]; reflexivity.
Qed.

Lemma new_closes_one (w : World) (v : Z) :
  new_closes w (fst (sys_close w v)) = [ECloseCall v].
Proof.
  unfold new_closes. rewrite sys_close_log. simpl.
  replace (S (length (w_close_log w)) - length (w_close_log w))%nat with 1%nat by lia.
  reflexivity.
Qed.

Lemma new_closes_none (w : World) : new_closes w w = [].
Proof. unfold new_closes. by rewrite Nat.sub_diag. Qed.

(** [close] below the threshold 2 touches nothing. *)
Lemma close_below_2 (w : World) (f : file) :
  m_fd f < 2 -> close w f = (w, f, Ok tt).
Proof.
  intros H. unfold close.
  destruct (m_fd f >=? 2) eqn:E; [zge; lia | reflexivity].
Qed.

(** [close] at or above 2 calls the OS once and always empties the object. *)
Lemma close_from_2 (w : World) (f : file) :
  m_fd f >= 2 ->
  exists r, close w f = (fst (sys_close w (m_fd f)), mk_file (-1), r).
Proof.
  intros H. unfold close.
  destruct (m_fd f >=? 2) eqn:E; [|zge; lia].
  destruct (sys_close w (m_fd f)) as [w1 r] eqn:Hs. simpl.
  destruct (negb (r =? 0)); eauto.
Qed.

(** ** Claims *)

(** C1: when the OS [close] of a non-reserved descriptor fails, [close]
    stores the sentinel -1 and throws a [system_error] carrying [errno];
    a second [close] is then a no-op that succeeds without calling the OS. *)
Theorem close_failure_releases (w : World) (f : file) :
  m_fd f >= 2 ->
  snd (sys_close w (m_fd f)) <> 0 ->
  let w1 := fst (sys_close w (m_fd f)) in
  close w f = (w1, mk_file (-1), Throw (mk_system_error (w_errno w1) "Error closing file: "))
  /\ close w1 (mk_file (-1)) = (w1, mk_file (-1), Ok tt).
Proof.
  intros H Hr w1. split.
  - unfold close, w1 in *.
    destruct (m_fd f >=? 2) eqn:E; [|zge; lia].
    destruct (sys_close w (m_fd f)) as [w2 r] eqn:Hs. simpl in *.
    destruct (r =? 0) eqn:Er; [apply Z.eqb_eq in Er; congruence | reflexivity].
  - apply close_below_2. simpl. lia.
Qed.

Lemma close_failure_releases_witness :
  (7 >= 2 /\ snd (sys_close w_demo 7) <> 0) /\
  close w_demo (file_wrap 7) =
    (fst (sys_close w_demo 7), mk_file (-1),
     Throw (mk_system_error 5 "Error closing file: ")).
Proof.
  split; [split; [lia | vm_compute; congruence]|].
  destruct (close_failure_releases w_demo (file_wrap 7)) as [H1 _].
  - simpl; lia.
  - vm_compute; congruence.
  - rewrite H1. reflexivity.
Defined.

(** C2 (counterexample): [w_demo] has standard input open on descriptor
    0; wrapping it and calling [close] succeeds, but [fd()] still returns 0,
    not the sentinel -1. *)
Lemma close_reserved_keeps_value :
  w_ftab w_demo !! 0 <> None /\
  close w_demo (file_wrap 0) = (w_demo, file_wrap 0, Ok tt) /\
  fd (file_wrap 0) <> -1.
Proof. split; [vm_compute; congruence | split; [reflexivity | vm_compute; congruence]]. Qed.

(** C2 (amended): for a descriptor value of at least 2 whose OS [close]
    succeeds, one [close] call succeeds and [fd()] afterwards returns -1;
    for a wrapped reserved value 0 or 1, [close] is a no-op that succeeds
    and [fd()] keeps returning that value. *)
Theorem close_once_empties (w : World) (f : file) :
  (m_fd f >= 2 ->
   snd (sys_close w (m_fd f)) = 0 ->
   exists w1 f1, close w f = (w1, f1, Ok tt) /\ fd f1 = -1) /\
  (m_fd f = 0 \/ m_fd f = 1 ->
   close w f = (w, f, Ok tt) /\ fd (snd (fst (close w f))) = m_fd f).
Proof.
  split.
  - intros H Hr. unfold close.
    destruct (m_fd f >=? 2) eqn:E; [|zge; lia].
    destruct (sys_close w (m_fd f)) as [w2 r] eqn:Hs. simpl in Hr. subst r.
    simpl. eauto.
  - intros H. rewrite close_below_2 by lia. split; reflexivity.
Qed.

Lemma close_once_empties_witness :
  (5 >= 2 /\ snd (sys_close w_demo 5) = 0) /\
  (exists w1 f1, close w_demo (file_wrap 5) = (w1, f1, Ok tt) /\ fd f1 = -1) /\
  (m_fd (file_wrap 0) = 0 \/ m_fd (file_wrap 0) = 1) /\
  close w_demo (file_wrap 0) = (w_demo, file_wrap 0, Ok tt).
Proof.
  destruct (close_once_empties w_demo (file_wrap 5)) as [H1 _].
  destruct (close_once_empties w_demo (file_wrap 0)) as [_ H2].
  split; [split; [lia | reflexivity]|]. split.
  - apply H1; [simpl; lia | reflexivity].
  - split; [left; reflexivity|]. apply H2. left; reflexivity.
Defined.

(** C3 (counterexample): with [a] wrapping the open standard input 0 and
    [b] wrapping 5, [a = std::move(b)] leaves descriptor 0 open and never
    passes it to the OS [close]: [a]'s prior resource is not released. *)
Lemma move_assign_drops_reserved :
  move_assign w_demo (file_wrap 0) (file_wrap 5) =
    (w_demo, file_wrap 5, mk_file (-1), Ok tt) /\
  w_close_log w_demo = [] /\ w_ftab w_demo !! 0 <> None.
Proof. split; [reflexivity | split; [reflexivity | vm_compute; congruence]]. Qed.

(** C3 (amended): move construction gives the new object [b]'s value and
    leaves -1 in [b].  Move assignment ends with [a] holding [b]'s former
    value and [b] holding -1; before that, [a]'s former value is passed
    once to the OS [close] if it is at least 2, while a value below 2
    (the sentinel or a reserved stream) is dropped without any OS call. *)
Theorem move_transfers (w : World) (a b : file) :
  move_construct b = (mk_file (fd b), mk_file (-1)) /\
  (m_fd a >= 2 ->
     exists r, move_assign w a b = (fst (sys_close w (m_fd a)), mk_file (fd b), mk_file (-1), r)) /\
  (m_fd a < 2 ->
     move_assign w a b = (w, mk_file (fd b), mk_file (-1), Ok tt)).
Proof.
  split; [reflexivity | split].
  - intros H. destruct (close_from_2 w a H) as [r Hc].
    unfold move_assign. rewrite Hc. eauto.
  - intros H. unfold move_assign. rewrite (close_below_2 w a H). reflexivity.
Qed.

Lemma move_transfers_witness :
  (5 >= 2 /\
   exists r, move_assign w_demo (file_wrap 5) (file_wrap 7) =
     (fst (sys_close w_demo 5), mk_file 7, mk_file (-1), r)) /\
  (0 < 2 /\
   move_assign w_demo (file_wrap 0) (file_wrap 7) = (w_demo, mk_file 7, mk_file (-1), Ok tt)).
Proof.
  destruct (move_transfers w_demo (file_wrap 5) (file_wrap 7)) as [_ [H1 _]].
  destruct (move_transfers w_demo (file_wrap 0) (file_wrap 7)) as [_ [_ H2]].
  split; split; [lia | apply H1; simpl; lia | lia | apply H2; simpl; lia].
Defined.

(** C4: the destructor and move assignment never let an exception out:
    whatever the OS [close] returns, both complete normally. *)
Theorem cleanup_never_throws (w : World) (a b : file) :
  snd (destroy w a) = Ok tt /\
  (let '(_, _, _, r) := move_assign w a b in r) = Ok tt.
Proof.
  unfold destroy, move_assign, close.
  destruct (m_fd a >=? 2); [|split; reflexivity].
  destruct (sys_close w (m_fd a)) as [w1 r].
  destruct (negb (r =? 0)); split; reflexivity.
Qed.

(** C5: for the sentinel -1 and the reserved values 0 and 1, [close]
    leaves the world (hence the log of OS [close] calls) and the object
    unchanged and succeeds. *)
Theorem close_empty_or_reserved_noop (w : World) (f : file) :
  m_fd f = -1 \/ m_fd f = 0 \/ m_fd f = 1 ->
  close w f = (w, f, Ok tt) /\ w_close_log (fst (fst (close w f))) = w_close_log w.
Proof.
  intros H. rewrite close_below_2 by lia. split; reflexivity.
Qed.

Lemma close_empty_or_reserved_noop_witness :
  (m_fd (file_wrap 1) = -1 \/ m_fd (file_wrap 1) = 0 \/ m_fd (file_wrap 1) = 1) /\
  close w_demo (file_wrap 1) = (w_demo, file_wrap 1, Ok tt).
Proof.
  split; [right; right; reflexivity|].
  apply (close_empty_or_reserved_noop w_demo (file_wrap 1)). right; right; reflexivity.
Defined.

(** C10: for any stored value below 2 (also any negative value given to
    the wrapping constructor), [close] makes no OS call, succeeds, and
    leaves the stored value unchanged, so [fd()] still returns it. *)
Theorem close_below_2_keeps_value (w : World) (v : Z) :
  v < 2 ->
  close w (file_wrap v) = (w, file_wrap v, Ok tt) /\
  fd (snd (fst (close w (file_wrap v)))) = v.
Proof.
  intros H. rewrite close_below_2 by (simpl; lia). split; reflexivity.
Qed.

Lemma close_below_2_keeps_value_witness :
  -7 < 2 /\ close w_demo (file_wrap (-7)) = (w_demo, file_wrap (-7), Ok tt).
Proof.
  split; [lia|]. apply (close_below_2_keeps_value w_demo (-7)). lia.
Defined.

(** C6: [open] either yields a [file] wrapping the non-negative descriptor
    the OS returned, or, when the OS returned a negative value, throws a
    [system_error] carrying [errno] whose message contains the path, and
    yields no object. *)
Theorem open_result (w : World) (path : string) (flags : Z) :
  let '(w1, v) := sys_open w path flags in
  (v < 0 ->
     exists e, open_handle w path flags = (w1, Throw e) /\ se_code e = w_errno w1 /\
       exists pre post, se_what e = pre +:+ path +:+ post) /\
  (0 <= v -> open_handle w path flags = (w1, Ok (file_wrap v))).
Proof.
  unfold open_handle, open_file.
  destruct (sys_open w path flags) as [w1 v].
  destruct (v <? 0) eqn:E; [apply Z.ltb_lt in E | apply Z.ltb_ge in E]; split; intros H;
    try lia.
  - eexists. split; [reflexivity|]. split; [reflexivity|].
    exists "Error opening file '", "': ". reflexivity.
  - reflexivity.
Qed.

Lemma open_result_witness :
  exists e, open_handle w_demo "none.tgd" 0 = (set_errno ENOENT w_demo, Throw e) /\
    se_code e = ENOENT.
Proof.
  pose proof (open_result w_demo "none.tgd" 0) as H. simpl in H.
  destruct H as [H _]. destruct H as [e [He [Hc _]]]; [lia|].
  exists e. split; [exact He | exact Hc].
Defined.

Lemma sys_open_fresh (w w1 : World) (path : string) (flags v : Z) :
  sys_open w path flags = (w1, v) -> 0 <= v ->
  w_ftab w1 !! v = Some (mk_ofd path 0) /\ w_files w1 !! path <> None.
Proof.
  unfold sys_open. intros Hs Hv.
  destruct (w_files w !! path) eqn:Ef; [|destruct (Z.testbit flags O_CREAT_BIT)];
    inversion Hs; subst; simpl.
  - rewrite lookup_insert_eq. split; [reflexivity | congruence].
  - rewrite !lookup_insert_eq. split; [reflexivity | congruence].
  - lia.
Qed.

Lemma to_size_t_small (z : Z) : 0 <= z < 2 ^ 63 -> to_size_t z = z.
Proof. intros H. unfold to_size_t. apply Z.mod_small. lia. Qed.

(** C7: [file_size] (Unix branch) returns the byte length of the file
    the descriptor's open description refers to, read from its metadata;
    moving the cursor of that description does not change the result; when
    [fstat] fails it throws a [system_error] carrying [errno]; and right
    after a successful [open] it returns the length the path has on disk. *)
Theorem file_size_from_metadata (w : World) (f : file) :
  (forall d, w_ftab w !! m_fd f = Some d -> 0 <= ofd_size w d < 2 ^ 63 ->
     file_size_unix w f = (w, Ok (ofd_size w d))) /\
  (forall d off, w_ftab w !! m_fd f = Some d ->
     snd (file_size_unix (set_ftab (<[m_fd f := mk_ofd (ofd_path d) off]> (w_ftab w)) w) f)
     = snd (file_size_unix w f)) /\
  (let '(w1, r, _) := sys_fstat w (m_fd f) in
   r <> 0 -> file_size_unix w f = (w1, Throw (mk_system_error (w_errno w1) "Could not get file size: "))) /\
  (forall path flags w1 h len,
     open_handle w path flags = (w1, Ok h) -> w_files w1 !! path = Some len -> 0 <= len < 2 ^ 63 ->
     file_size_unix w1 h = (w1, Ok len)).
Proof.
  split; [|split; [|split]].
  - intros d Hd Hb. unfold file_size_unix, sys_fstat. rewrite Hd. simpl.
    by rewrite to_size_t_small.
  - intros d off Hd. unfold file_size_unix, sys_fstat. simpl.
    rewrite lookup_insert_eq, Hd. reflexivity.
  - unfold file_size_unix. destruct (sys_fstat w (m_fd f)) as [[w1 r] st].
    intros Hr. destruct (r =? 0) eqn:E; [apply Z.eqb_eq in E; congruence | reflexivity].
  - intros path flags w1 h len Ho Hl Hb. unfold open_handle, open_file in Ho.
    destruct (sys_open w path flags) as [w2 v] eqn:Hs.
    destruct (v <? 0) eqn:E; [discriminate|]. apply Z.ltb_ge in E.
    inversion Ho; subst. destruct (sys_open_fresh w w1 path flags v Hs E) as [Ht _].
    unfold file_size_unix, sys_fstat. simpl. rewrite Ht. simpl.
    unfold ofd_size. simpl. rewrite Hl. simpl. by rewrite to_size_t_small.
Qed.

Lemma file_size_from_metadata_witness :
  file_size_unix w_demo (file_wrap 5) = (w_demo, Ok 1234) /\
  (exists w1 h, open_handle w_demo "data.tgd" 0 = (w1, Ok h) /\
     file_size_unix w1 h = (w1, Ok 1234)).
Proof.
  destruct (file_size_from_metadata w_demo (file_wrap 5)) as [H1 [_ [_ H4]]].
  split.
  - apply (H1 (mk_ofd "data.tgd" 100)); [reflexivity | vm_compute; split; congruence].
  - eexists _, _. split; [reflexivity|].
    apply (H4 "data.tgd" 0); [reflexivity | reflexivity | vm_compute; split; congruence].
Defined.

(** C9: on the same world and descriptor, the [_MSC_VER] branch of
    [file_size] ([_filelengthi64] under a disabled invalid-parameter
    handler) and the Unix branch ([fstat]) end in the same world (the
    previous handler is back in place) with the same result or the same
    exception; in particular the Windows branch never aborts.  The only
    assumption is that the length of an open file is not negative. *)
Theorem file_size_platforms_agree (w : World) (f : file) :
  (forall d, w_ftab w !! m_fd f = Some d -> 0 <= ofd_size w d) ->
  file_size_win w f = file_size_unix w f.
Proof.
  intros Hnn. unfold file_size_win, file_size_unix, sys_filelengthi64, sys_fstat.
  destruct w as [fs ft nx er cf lg h]; simpl in *.
  destruct (ft !! m_fd f) as [d|] eqn:E.
  - specialize (Hnn d eq_refl). unfold ofd_size in *. simpl in *.
    destruct (default 0 (fs !! ofd_path d) <? 0) eqn:L; [apply Z.ltb_lt in L; lia|].
    reflexivity.
  - reflexivity.
Qed.

Lemma file_size_platforms_agree_witness :
  (forall d, w_ftab w_demo !! 5 = Some d -> 0 <= ofd_size w_demo d) /\
  file_size_win w_demo (file_wrap 5) = file_size_unix w_demo (file_wrap 5).
Proof.
  assert (H : forall d, w_ftab w_demo !! 5 = Some d -> 0 <= ofd_size w_demo d).
  { intros d Hd. vm_compute in Hd. inversion Hd. vm_compute. congruence. }
  split; [exact H|]. apply file_size_platforms_agree. exact H.
Defined.

(** ** A single object's lifetime *)

Lemma check_app (held : list Z) (e1 e2 : list event) :
  check held (e1 ++ e2) = check held e1 ≫= (fun h => check h e2).
Proof.
  revert held. induction e1 as [|[v|v|v] e1 IH]; intros held; simpl.
  - reflexivity.
  - apply IH.
  - case_bool_decide; [apply IH | reflexivity].
  - apply IH.
Qed.

(** The object's invariant: a value it may still pass to [close] is one it holds. *)
Definition holds (a : file) (held : list Z) : Prop := m_fd a >= 2 -> m_fd a ∈ held.

Lemma close_events (w : World) (a : file) (held : list Z) :
  holds a held ->
  exists w1 a1 r held', close w a = (w1, a1, r) /\
    check held (new_closes w w1) = Some held' /\ holds a1 held'.
Proof.
  intros Hh. destruct (Z_lt_ge_dec (m_fd a) 2) as [Hl|Hg].
  - exists w, a, (Ok tt), held. rewrite close_below_2 by exact Hl.
    rewrite new_closes_none. repeat split. exact Hh.
  - destruct (close_from_2 w a Hg) as [r Hc].
    exists (fst (sys_close w (m_fd a))), (mk_file (-1)), r, (remove_one (m_fd a) held).
    rewrite new_closes_one. simpl. rewrite bool_decide_true by (apply Hh; exact Hg).
    repeat split; [exact Hc | intros H; simpl in H; lia].
Qed.

Lemma step_events (w : World) (a : file) (o : op) (held : list Z) :
  holds a held ->
  let '(_, a1, ev) := step w a o in
  exists held', check held ev = Some held' /\ holds a1 held'.
Proof.
  intros Hh. destruct o as [| |dst|src|path flags]; simpl.
  - destruct (close_events w a held Hh) as (w1 & a1 & r & h' & Hc & Hk & Ha).
    rewrite Hc. eauto.
  - exists (remove_one (m_fd a) held). split; [reflexivity | intros H; simpl in H; lia].
  - unfold move_assign. destruct (close w (mk_file dst)) as [[w1 g1] r].
    exists (remove_one (m_fd a) held). split; [reflexivity | intros H; simpl in H; lia].
  - destruct (close_events w a held Hh) as (w1 & a1 & r & h' & Hc & Hk & Ha).
    unfold move_assign. rewrite Hc. exists (src :: h').
    rewrite check_app, Hk. simpl. split; [reflexivity | intros _; simpl; left].
  - destruct (open_handle w path flags) as [w1 [tmp|e|]]; [|exists held; auto..].
    destruct (close_events w1 a held Hh) as (w2 & a1 & r & h' & Hc & Hk & Ha).
    unfold move_assign. rewrite Hc. unfold destroy.
    rewrite close_below_2 by (simpl; lia). exists (m_fd tmp :: h').
    rewrite check_app, Hk. simpl. split; [reflexivity | intros _; simpl; left].
Qed.

Lemma run_events (w : World) (a : file) (ops : list op) (held : list Z) :
  holds a held ->
  let '(_, a1, ev) := run w a ops in
  exists held', check held ev = Some held' /\ holds a1 held'.
Proof.
  revert w a held. induction ops as [|o ops IH]; intros w a held Hh; simpl.
  - eauto.
  - pose proof (step_events w a o held Hh) as Hs.
    destruct (step w a o) as [[w1 a1] ev1].
    destruct Hs as (h1 & Hk1 & Ha1).
    specialize (IH w1 a1 h1 Ha1). destruct (run w1 a1 ops) as [[w2 a2] ev2].
    destruct IH as (h2 & Hk2 & Ha2). exists h2.
    rewrite check_app, Hk1. simpl. auto.
Qed.

Lemma open_handle_nonneg (w w1 : World) (path : string) (flags : Z) (h : file) :
  open_handle w path flags = (w1, Ok h) -> 0 <= m_fd h.
Proof.
  unfold open_handle, open_file. destruct (sys_open w path flags) as [w2 v].
  destruct (v <? 0) eqn:E; [discriminate|]. apply Z.ltb_ge in E.
  intros Ho. inversion Ho. simpl. exact E.
Qed.

(** C8 (counterexample): an object wrapping the open standard input 0
    (owning) goes to the sentinel -1 when an empty object is move-assigned
    into it; that is a move-in, not a [close], destruction or move-out, and
    no OS [close] is made. *)
Lemma move_in_empty_empties_owner :
  w_ftab w_demo !! 0 <> None /\
  step w_demo (file_wrap 0) (OMoveAssignIn (-1)) = (w_demo, mk_file (-1), [EAcquire (-1)]).
Proof. split; [vm_compute; congruence | reflexivity]. Qed.

(** C8 (amended): over the whole life of one object (construction by
    wrapping, [open] or move, any sequence of [close], move-out, move-in
    and assignment from [open], then destruction), the object never passes
    to the OS [close] a descriptor it does not hold: each descriptor it
    acquires is closed by it at most once, and never after it was handed
    over.  The stored value is either the sentinel -1 or not; it becomes -1
    only through [close] of a value of at least 2, a move-out, or a
    move-assignment from an empty source, and leaves -1 only through a
    move-in from a non-empty source or an assignment from a successful
    [open].  A move-assignment from an empty source into an object holding
    a reserved value 0 or 1 drops that value without any OS [close]: the
    world is unchanged and the object records no close call. *)
Theorem lifetime_no_double_close (w : World) (i : init) (ops : list op) :
  closes_ok (snd (lifetime w i ops)) = true /\
  (forall (w' : World) (a : file) (o : op),
     let a1 := snd (fst (step w' a o)) in
     (m_fd a <> -1 -> m_fd a1 = -1 ->
        (o = OClose /\ m_fd a >= 2) \/ o = OMoveConstructOut \/
        (exists d, o = OMoveAssignOut d) \/ o = OMoveAssignIn (-1)) /\
     (m_fd a = -1 -> m_fd a1 <> -1 ->
        (exists s, o = OMoveAssignIn s /\ s <> -1) \/
        (exists p fl h, o = OAssignOpen p fl /\ snd (open_handle w' p fl) = Ok h))) /\
  (forall (w' : World) (a : file),
     m_fd a = 0 \/ m_fd a = 1 ->
     step w' a (OMoveAssignIn (-1)) = (w', mk_file (-1), [EAcquire (-1)])).
Proof.
  split; [|split]; cycle 2.
  { intros w' a H. simpl. unfold move_assign.
    rewrite close_below_2 by lia. rewrite new_closes_none. reflexivity. }
  - unfold lifetime, closes_ok.
    destruct (construct w i) as [[w1 [a|]] ev0] eqn:Hci.
    + assert (H0 : check [] ev0 = Some [m_fd a] /\ holds a [m_fd a]).
      { split; [|intros _; left].
        destruct i as [v|path flags|v]; simpl in Hci.
        - inversion Hci; reflexivity.
        - destruct (open_handle w path flags) as [w2 [h|e|]];
            inversion Hci; subst; reflexivity.
        - inversion Hci; reflexivity. }
      destruct H0 as [Hk0 Ha0].
      pose proof (run_events w1 a ops [m_fd a] Ha0) as Hr.
      destruct (run w1 a ops) as [[w2 a2] ev1].
      destruct Hr as (h2 & Hk1 & Ha2).
      destruct (close_events w2 a2 h2 Ha2) as (w3 & a3 & r & h3 & Hc & Hk2 & _).
      unfold destroy. rewrite Hc. simpl.
      rewrite check_app, Hk0. simpl. rewrite check_app, Hk1. simpl. rewrite Hk2. reflexivity.
    + destruct i as [v|path flags|v]; simpl in Hci; [discriminate| |discriminate].
      destruct (open_handle w path flags) as [w2 [h|e|]]; inversion Hci; reflexivity.
  - intros w' a o a1. unfold a1. clear a1.
    destruct o as [| |dst|src|path flags]; simpl.
    + destruct (Z_lt_ge_dec (m_fd a) 2) as [Hl|Hg].
      * rewrite close_below_2 by exact Hl. simpl. split; intros; lia.
      * destruct (close_from_2 w' a Hg) as [r Hc]. rewrite Hc. simpl.
        split; intros; [left; auto | lia].
    + split; intros; [right; left; reflexivity | simpl in *; lia].
    + unfold move_assign. destruct (close w' (mk_file dst)) as [[w1 g1] r]. simpl.
      split; intros; [right; right; left; eauto | lia].
    + unfold move_assign. destruct (close w' a) as [[w1 g1] r]. simpl.
      split; intros H1 H2; [subst; right; right; right; reflexivity | left; eauto].
    + destruct (open_handle w' path flags) as [w1 [tmp|e|]] eqn:Ho.
      * pose proof (open_handle_nonneg w' w1 path flags tmp Ho).
        unfold move_assign. destruct (close w1 a) as [[w2 g1] r].
        unfold destroy. rewrite close_below_2 by (simpl; lia). simpl.
        split; intros; [lia | right; exists path, flags, tmp; rewrite Ho; auto].
      * simpl. split; intros; lia.
      * simpl. split; intros; lia.
Qed.

Lemma lifetime_no_double_close_witness :
  ((5 <> -1 /\ m_fd (snd (fst (step w_demo (file_wrap 5) OClose))) = -1) /\
   ((OClose = OClose /\ m_fd (file_wrap 5) >= 2) \/ OClose = OMoveConstructOut \/
    (exists d, OClose = OMoveAssignOut d) \/ OClose = OMoveAssignIn (-1))) /\
  ((m_fd (file_wrap 1) = 0 \/ m_fd (file_wrap 1) = 1) /\
   step w_demo (file_wrap 1) (OMoveAssignIn (-1)) = (w_demo, mk_file (-1), [EAcquire (-1)])).
Proof.
  destruct (lifetime_no_double_close w_demo (IWrap 5) []) as [_ [Ht Hr]].
  assert (H : 5 <> -1 /\ m_fd (snd (fst (step w_demo (file_wrap 5) OClose))) = -1)
    by (split; [lia | reflexivity]).
  split.
  - split; [exact H|].
    destruct (Ht w_demo (file_wrap 5) OClose) as [H1 _].
    apply H1; [simpl; lia | exact (proj2 H)].
  - split; [right; reflexivity|]. apply Hr. right; reflexivity.
Defined.

(** ** Further properties of [file] *)

(** [a = std::move(a)]: [this] and [other] are the same object.  The
    [assert(this != &other)] aborts unless the build defines [NDEBUG];
    otherwise [close()] runs, [m_fd = other.m_fd] copies the object's own
    (now updated) value onto itself, and [other.m_fd = -1] empties it. *)
Definition move_assign_self (ndebug : bool) (w : World) (a : file) : World * file * outcome unit :=
  if negb ndebug then (w, a, Abort)
  else
    let '(w1, a1, r) := close w a in
    let a2 := mk_file (m_fd a1) in
    let a3 := mk_file (-1) in
    (w1, a3, catch_all r).

(** Moving the held descriptors to and from the object: the descriptors of
    at least 2 that it holds are exactly its stored value, when that is at
    least 2. *)
Definition holds2 (a : file) (held : list Z) : Prop :=
  List.filter (fun v => 2 <=? v) held = if m_fd a >=? 2 then [m_fd a] else [].

Lemma filter_remove_one (v : Z) (l : list Z) :
  List.filter (fun x => 2 <=? x) (remove_one v l) =
  if 2 <=? v then remove_one v (List.filter (fun x => 2 <=? x) l)
  else List.filter (fun x => 2 <=? x) l.
Proof.
  induction l as [|x l IH]; simpl.
  - destruct (2 <=? v); reflexivity.
  - destruct (x =? v) eqn:Exv.
    + apply Z.eqb_eq in Exv. subst x.
      destruct (2 <=? v) eqn:E; simpl; [rewrite Z.eqb_refl|]; reflexivity.
    + simpl. rewrite IH.
      destruct (2 <=? x) eqn:Ex, (2 <=? v) eqn:Ev; simpl; try rewrite Exv; reflexivity.
Qed.

Lemma holds2_in (a : file) (held : list Z) :
  holds2 a held -> m_fd a >= 2 -> m_fd a ∈ held.
Proof.
  unfold holds2. intros H Hg.
  destruct (m_fd a >=? 2) eqn:E; [|zge; lia].
  apply list_elem_of_In. assert (Hin : In (m_fd a) (List.filter (fun v => 2 <=? v) held))
    by (rewrite H; left; reflexivity).
  apply filter_In in Hin. tauto.
Qed.

Lemma close_events2 (w : World) (a : file) (held : list Z) :
  holds2 a held ->
  exists w1 a1 r held', close w a = (w1, a1, r) /\
    check held (new_closes w w1) = Some held' /\
    List.filter (fun v => 2 <=? v) held' = [] /\ holds2 a1 held'.
Proof.
  intros Hh. destruct (Z_lt_ge_dec (m_fd a) 2) as [Hl|Hg].
  - exists w, a, (Ok tt), held. rewrite close_below_2 by exact Hl.
    rewrite new_closes_none. unfold holds2 in *.
    destruct (m_fd a >=? 2) eqn:E; [zge; lia|]. auto.
  - destruct (close_from_2 w a Hg) as [r Hc].
    exists (fst (sys_close w (m_fd a))), (mk_file (-1)), r, (remove_one (m_fd a) held).
    rewrite new_closes_one. simpl. rewrite bool_decide_true by (apply holds2_in; auto).
    assert (Hf : List.filter (fun v => 2 <=? v) (remove_one (m_fd a) held) = []).
    { rewrite filter_remove_one. unfold holds2 in Hh.
      destruct (m_fd a >=? 2) eqn:E; [|zge; lia].
      destruct (2 <=? m_fd a) eqn:E2; [|apply Z.leb_gt in E2; lia].
      rewrite Hh. simpl. rewrite Z.eqb_refl. reflexivity. }
    repeat split; [exact Hc | exact Hf | unfold holds2; exact Hf].
Qed.

Lemma holds2_release (a : file) (held : list Z) :
  holds2 a held -> List.filter (fun v => 2 <=? v) (remove_one (m_fd a) held) = [].
Proof.
  unfold holds2. intros Hh. rewrite filter_remove_one, Hh.
  destruct (m_fd a >=? 2) eqn:E; destruct (2 <=? m_fd a) eqn:E2; simpl;
    try rewrite Z.eqb_refl; try reflexivity; zge; apply Z.leb_gt in E2; lia.
Qed.

Lemma holds2_acquire (v : Z) (held : list Z) :
  List.filter (fun x => 2 <=? x) held = [] -> holds2 (mk_file v) (v :: held).
Proof.
  unfold holds2. simpl. intros H. rewrite H.
  destruct (2 <=? v) eqn:E, (v >=? 2) eqn:E2; try reflexivity;
    zge; [apply Z.leb_le in E | apply Z.leb_gt in E]; lia.
Qed.

Lemma holds2_empty (held : list Z) :
  List.filter (fun v => 2 <=? v) held = [] -> holds2 (mk_file (-1)) held.
Proof. unfold holds2. simpl. auto. Qed.

Lemma step_events2 (w : World) (a : file) (o : op) (held : list Z) :
  holds2 a held ->
  let '(_, a1, ev) := step w a o in
  exists held', check held ev = Some held' /\ holds2 a1 held'.
Proof.
  intros Hh. destruct o as [| |dst|src|path flags]; simpl.
  - destruct (close_events2 w a held Hh) as (w1 & a1 & r & h' & Hc & Hk & _ & Ha).
    rewrite Hc. eauto.
  - exists (remove_one (m_fd a) held). split; [reflexivity|].
    apply holds2_empty, holds2_release, Hh.
  - unfold move_assign. destruct (close w (mk_file dst)) as [[w1 g1] r].
    exists (remove_one (m_fd a) held). split; [reflexivity|].
    apply holds2_empty, holds2_release, Hh.
  - destruct (close_events2 w a held Hh) as (w1 & a1 & r & h' & Hc & Hk & Hf & _).
    unfold move_assign. rewrite Hc. exists (src :: h').
    rewrite check_app, Hk. simpl. split; [reflexivity | apply holds2_acquire, Hf].
  - destruct (open_handle w path flags) as [w1 [tmp|e|]]; [|exists held; auto..].
    destruct (close_events2 w1 a held Hh) as (w2 & a1 & r & h' & Hc & Hk & Hf & _).
    unfold move_assign. rewrite Hc. unfold destroy.
    rewrite close_below_2 by (simpl; lia). exists (m_fd tmp :: h').
    rewrite check_app, Hk. simpl. split; [reflexivity | apply holds2_acquire, Hf].
Qed.

Lemma run_events2 (w : World) (a : file) (ops : list op) (held : list Z) :
  holds2 a held ->
  let '(_, a1, ev) := run w a ops in
  exists held', check held ev = Some held' /\ holds2 a1 held'.
Proof.
  revert w a held. induction ops as [|o ops IH]; intros w a held Hh; simpl.
  - eauto.
  - pose proof (step_events2 w a o held Hh) as Hs.
    destruct (step w a o) as [[w1 a1] ev1].
    destruct Hs as (h1 & Hk1 & Ha1).
    specialize (IH w1 a1 h1 Ha1). destruct (run w1 a1 ops) as [[w2 a2] ev2].
    destruct IH as (h2 & Hk2 & Ha2). exists h2.
    rewrite check_app, Hk1. simpl. auto.
Qed.

(** No leak: over the whole life of one object, every descriptor of at
    least 2 it acquires is, by the end of its destructor, either passed by
    it to the OS [close] or handed over to another object; only values
    below 2 (the sentinel, the reserved streams, negative values) may be
    left neither closed nor handed over. *)
Theorem lifetime_releases_all (w : World) (i : init) (ops : list op) :
  exists held, check [] (snd (lifetime w i ops)) = Some held /\ Forall (fun v => v < 2) held.
Proof.
  assert (Hfin : forall held, List.filter (fun v => 2 <=? v) held = [] ->
                              Forall (fun v => v < 2) held).
  { induction held as [|x l IH]; simpl; [constructor|].
    destruct (2 <=? x) eqn:E; [discriminate|]. apply Z.leb_gt in E.
    intros H. constructor; auto. }
  unfold lifetime.
  destruct (construct w i) as [[w1 [a|]] ev0] eqn:Hci.
  - assert (H0 : check [] ev0 = Some [m_fd a]).
    { destruct i as [v|path flags|v]; simpl in Hci.
      - inversion Hci; reflexivity.
      - destruct (open_handle w path flags) as [w2 [h|e|]];
          inversion Hci; subst; reflexivity.
      - inversion Hci; reflexivity. }
    assert (Ha0 : holds2 a [m_fd a]).
    { unfold holds2. simpl.
      destruct (2 <=? m_fd a) eqn:E, (m_fd a >=? 2) eqn:E2; try reflexivity;
        zge; [apply Z.leb_le in E | apply Z.leb_gt in E]; lia. }
    pose proof (run_events2 w1 a ops [m_fd a] Ha0) as Hr.
    destruct (run w1 a ops) as [[w2 a2] ev1].
    destruct Hr as (h2 & Hk1 & Ha2).
    destruct (close_events2 w2 a2 h2 Ha2) as (w3 & a3 & r & h3 & Hc & Hk2 & Hf & _).
    unfold destroy. rewrite Hc. simpl. exists h3.
    rewrite check_app, H0. simpl. rewrite check_app, Hk1. simpl. rewrite Hk2.
    split; [reflexivity | apply Hfin, Hf].
  - exists []. split; [|constructor].
    destruct i as [v|path flags|v]; simpl in Hci; [discriminate| |discriminate].
    destruct (open_handle w path flags) as [w2 [h|e|]]; inversion Hci; reflexivity.
Qed.

(** [close] is idempotent: whatever the first call did (succeeded, threw,
    or was a no-op), a second call changes nothing and succeeds. *)
Theorem close_idempotent (w : World) (f : file) :
  let '(w1, f1, _) := close w f in close w1 f1 = (w1, f1, Ok tt).
Proof.
  destruct (Z_lt_ge_dec (m_fd f) 2) as [Hl|Hg].
  - rewrite close_below_2 by exact Hl. apply close_below_2, Hl.
  - destruct (close_from_2 w f Hg) as [r Hc]. rewrite Hc.
    apply close_below_2. simpl. lia.
Qed.

(** [close] makes at most one OS [close] call, always on the object's own
    stored value, and only when that value is at least 2. *)
Theorem close_calls_own_fd (w : World) (f : file) :
  w_close_log (fst (fst (close w f))) =
    (if m_fd f >=? 2 then [m_fd f] else []) ++ w_close_log w.
Proof.
  destruct (Z_lt_ge_dec (m_fd f) 2) as [Hl|Hg].
  - rewrite close_below_2 by exact Hl.
    destruct (m_fd f >=? 2) eqn:E; [zge; lia | reflexivity].
  - destruct (close_from_2 w f Hg) as [r Hc]. rewrite Hc. simpl.
    rewrite sys_close_log. destruct (m_fd f >=? 2) eqn:E; [reflexivity | zge; lia].
Qed.

(** A moved-from object is harmless: destroying the source of a move
    construction or of a move assignment makes no OS call and changes
    nothing. *)
Theorem moved_from_destroy_noop (w : World) (a b : file) :
  destroy w (snd (move_construct b)) = (w, Ok tt) /\
  (let '(w1, _, b1, _) := move_assign w a b in destroy w1 b1 = (w1, Ok tt)).
Proof.
  split.
  - unfold destroy. rewrite close_below_2 by (simpl; lia). reflexivity.
  - unfold move_assign. destruct (close w a) as [[w1 a1] r].
    unfold destroy. rewrite close_below_2 by (simpl; lia). reflexivity.
Qed.

Lemma close_never_aborts (w : World) (f : file) : snd (close w f) <> Abort.
Proof.
  unfold close. destruct (m_fd f >=? 2); [|discriminate].
  destruct (sys_close w (m_fd f)) as [w1 r]. destruct (negb (r =? 0)); discriminate.
Qed.

(** Self move assignment: with assertions enabled the [assert] aborts;
    in an [NDEBUG] build the object closes its own descriptor (when it is at
    least 2) and ends empty, so a reserved value is dropped as well. *)
Theorem self_move_assign (w : World) (a : file) :
  move_assign_self false w a = (w, a, Abort) /\
  move_assign_self true w a =
    (if m_fd a >=? 2 then fst (sys_close w (m_fd a)) else w, mk_file (-1), Ok tt).
Proof.
  split; [reflexivity|]. unfold move_assign_self. simpl.
  destruct (Z_lt_ge_dec (m_fd a) 2) as [Hl|Hg].
  - rewrite close_below_2 by exact Hl.
    destruct (m_fd a >=? 2) eqn:E; [zge; lia | reflexivity].
  - destruct (close_from_2 w a Hg) as [r Hc]. rewrite Hc.
    destruct (m_fd a >=? 2) eqn:E; [|zge; lia].
    pose proof (close_never_aborts w a) as Hna. rewrite Hc in Hna.
    destruct r; [reflexivity | reflexivity | simpl in Hna; congruence].
Qed.

(** The Windows [file_size] never aborts, whatever the descriptor and
    whatever handler was installed, and reinstalls the handler that was
    installed before the call. *)
Theorem file_size_win_guard (w : World) (f : file) :
  snd (file_size_win w f) <> Abort /\ w_iph (fst (file_size_win w f)) = w_iph w.
Proof.
  unfold file_size_win, sys_filelengthi64. simpl.
  destruct (w_ftab w !! m_fd f) as [d|].
  - destruct (ofd_size (set_iph IphIgnore w) d <? 0); simpl; split; congruence.
  - simpl. split; congruence.
Qed.

(** On a descriptor that is not open, the Windows [file_size] throws a
    [system_error] with [EBADF] even when the aborting default handler is
    installed, where the bare [_filelengthi64] call would abort. *)
Theorem file_size_win_bad_fd (w : World) (f : file) :
  w_ftab w !! m_fd f = None -> w_iph w = IphDefault ->
  sys_filelengthi64 w (m_fd f) = None /\
  file_size_win w f =
    (set_errno EBADF w, Throw (mk_system_error EBADF "Could not get file size: ")).
Proof.
  intros Hn Hi. unfold file_size_win, sys_filelengthi64. simpl. rewrite Hn, Hi.
  split; [reflexivity|]. destruct w; simpl in *; subst; reflexivity.
Qed.

Lemma file_size_win_bad_fd_witness :
  (w_ftab w_demo !! 3 = None /\ w_iph w_demo = IphDefault) /\
  file_size_win w_demo (file_wrap 3) =
    (set_errno EBADF w_demo, Throw (mk_system_error EBADF "Could not get file size: ")).
Proof.
  split; [split; reflexivity|].
  apply (file_size_win_bad_fd w_demo (file_wrap 3)); reflexivity.
Defined.
